(** * letterboxd_streaming: the fetch-and-cache pipeline

    A shallow embedding of [letterboxd_streaming.py]: the JSON cache file
    ([load_cache], [save_cache]), the per-film worker ([scrape_film_worker],
    [scrape_streaming_info], [setup_driver]) and the scheduling loop of
    [main] around a [ThreadPoolExecutor(max_workers=3)].

    Conventions of the model.
    - A Python [str] is a [string]; each character stands for one code
      point in the range 0..255.
    - The cache dictionary is a [gmap string CacheEntry]; a cache entry is
      the dictionary [{'title': .., 'streaming': ..}] the program writes.
    - The browser, the film pages and the file system are external: what
      they answer is read from an [Env] and a [filesystem].
    - [print] appends a [message] to the standard output of the [world].
    - The thread pool is a labelled transition system; a run of [main] is
      driven by a schedule, the list of the transitions taken. *)

From Stdlib Require Import Ascii String NArith Sorting.Sorted Permutation.
From stdpp Require Import gmap strings list sorting.

Open Scope string_scope.
Open Scope list_scope.
Open Scope nat_scope.

(** ** The [json] module, as far as the cache file exercises it *)

Module Json.

Local Open Scope char_scope.

(** Values that [json.load] can return.  Numbers carry no value: the
    program never computes with one.  A string is a list of code points,
    since a [\uXXXX] escape can denote a character above 255; two surrogate
    escapes in a row are kept as two code points. *)
#[warnings="-register-all"]
Inductive json : Type :=
  | JNull
  | JBool (b : bool)
  | JNumber
  | JString (s : list N)
  | JArray (items : list json)
  | JObject (members : list (list N * json)).

(** *** Encoding: [json.dump(obj, f, indent=2)], [ensure_ascii=True] *)

Definition hex_digit (n : N) : ascii :=
  match n with
  | 0 => "0" | 1 => "1" | 2 => "2" | 3 => "3" | 4 => "4" | 5 => "5"
  | 6 => "6" | 7 => "7" | 8 => "8" | 9 => "9" | 10 => "a" | 11 => "b"
  | 12 => "c" | 13 => "d" | 14 => "e" | _ => "f"
  end%N.

(** [ESCAPE_DCT], and ['\\u{0:04x}'.format(n)] for the other characters
    outside [' '..'~']. *)
Definition escape_char (c : ascii) : list ascii :=
  let n := N_of_ascii c in
  if Ascii.eqb c "034" then ["\"; "034"]
  else if Ascii.eqb c "\" then ["\"; "\"]
  else if (n =? 8)%N then ["\"; "b"]
  else if (n =? 12)%N then ["\"; "f"]
  else if (n =? 10)%N then ["\"; "n"]
  else if (n =? 13)%N then ["\"; "r"]
  else if (n =? 9)%N then ["\"; "t"]
  else if ((32 <=? n) && (n <=? 126))%N then [c]
  else ["\"; "u"; "0"; "0"; hex_digit (n / 16); hex_digit (n mod 16)]%N.

(** [encode_basestring_ascii] *)
Definition encode_string (s : string) : list ascii :=
  ["034"] ++ concat (map escape_char (list_ascii_of_string s)) ++ ["034"].

Definition text (s : string) : list ascii := list_ascii_of_string s.
Arguments text s%_string.

(** One [key: value] pair of a dictionary of strings, at indentation level
    2 (four spaces). *)
Definition encode_field (kv : string * string) : list ascii :=
  text "    " ++ encode_string kv.1 ++ text ": " ++ encode_string kv.2.

Fixpoint join_items (sep : list ascii) (items : list (list ascii)) : list ascii :=
  match items with
  | [] => []
  | [x] => x
  | x :: rest => x ++ sep ++ join_items sep rest
  end.

(** A dictionary of strings nested in the top-level dictionary:
    [_iterencode_dict] at [_current_indent_level = 1]. *)
Definition encode_inner (fields : list (string * string)) : list ascii :=
  match fields with
  | [] => text "{}"
  | _ => text "{" ++ [ascii_of_nat 10] ++
         join_items (text "," ++ [ascii_of_nat 10]) (map encode_field fields) ++
         [ascii_of_nat 10] ++ text "  }"
  end.

Definition encode_member (kv : string * list (string * string)) : list ascii :=
  text "  " ++ encode_string kv.1 ++ text ": " ++ encode_inner kv.2.

(** The top-level dictionary: [_iterencode_dict] at level 0. *)
Definition encode_outer (members : list (string * list (string * string))) : list ascii :=
  match members with
  | [] => text "{}"
  | _ => text "{" ++ [ascii_of_nat 10] ++
         join_items (text "," ++ [ascii_of_nat 10]) (map encode_member members) ++
         [ascii_of_nat 10] ++ text "}"
  end.

(** *** Decoding: [json.load], after CPython's scanner *)

Definition is_whitespace (c : ascii) : bool :=
  let n := N_of_ascii c in
  ((n =? 32) || (n =? 9) || (n =? 10) || (n =? 13))%N.

Fixpoint skip_ws (s : list ascii) : list ascii :=
  match s with
  | c :: r => if is_whitespace c then skip_ws r else s
  | [] => []
  end.

Definition is_digit (c : ascii) : bool :=
  let n := N_of_ascii c in ((48 <=? n) && (n <=? 57))%N.

Definition hex_value (c : ascii) : option N :=
  let n := N_of_ascii c in
  if ((48 <=? n) && (n <=? 57))%N then Some (n - 48)%N
  else if ((97 <=? n) && (n <=? 102))%N then Some (n - 87)%N
  else if ((65 <=? n) && (n <=? 70))%N then Some (n - 55)%N
  else None.

(** [scanstring], strict mode; [s] starts after the opening quote.  The
    result is the decoded string and the input after the closing quote. *)
Fixpoint scanstring (s : list ascii) : option (list N * list ascii) :=
  match s with
  | [] => None
  | c :: r =>
    if Ascii.eqb c "034" then Some ([], r)
    else if Ascii.eqb c "\" then
      match r with
      | [] => None
      | e :: r' =>
        let simple (n : N) :=
          match scanstring r' with
          | Some (cs, rest) => Some (n :: cs, rest)
          | None => None
          end in
        if Ascii.eqb e "034" then simple 34%N
        else if Ascii.eqb e "\" then simple 92%N
        else if Ascii.eqb e "/" then simple 47%N
        else if Ascii.eqb e "b" then simple 8%N
        else if Ascii.eqb e "f" then simple 12%N
        else if Ascii.eqb e "n" then simple 10%N
        else if Ascii.eqb e "r" then simple 13%N
        else if Ascii.eqb e "t" then simple 9%N
        else if Ascii.eqb e "u" then
          match r' with
          | h1 :: h2 :: h3 :: h4 :: r'' =>
            match hex_value h1, hex_value h2, hex_value h3, hex_value h4 with
            | Some d1, Some d2, Some d3, Some d4 =>
              match scanstring r'' with
              | Some (cs, rest) =>
                Some ((4096 * d1 + 256 * d2 + 16 * d3 + d4)%N :: cs, rest)
              | None => None
              end
            | _, _, _, _ => None
            end
          | _ => None
          end
        else None
      end
    else if (N_of_ascii c <? 32)%N then None
    else match scanstring r with
         | Some (cs, rest) => Some (N_of_ascii c :: cs, rest)
         | None => None
         end
  end.

Fixpoint skip_digits (s : list ascii) : list ascii :=
  match s with
  | c :: r => if is_digit c then skip_digits r else s
  | [] => []
  end.

(** [_match_number]: the input after the longest number literal at the
    head of [s], if there is one. *)
Definition match_number (s : list ascii) : option (list ascii) :=
  let s1 := match s with
            | c :: r => if Ascii.eqb c "-" then r else s
            | [] => s
            end in
  let after_int :=
    match s1 with
    | c :: r =>
      if Ascii.eqb c "0" then Some r
      else if is_digit c then Some (skip_digits r)
      else None
    | [] => None
    end in
  match after_int with
  | None => None
  | Some s2 =>
    let s3 := match s2 with
              | dot :: d :: r =>
                if Ascii.eqb dot "." && is_digit d then skip_digits r else s2
              | _ => s2
              end in
    let s4 := match s3 with
              | e :: r =>
                if Ascii.eqb e "e" || Ascii.eqb e "E" then
                  let r1 := match r with
                            | sg :: r' =>
                              if Ascii.eqb sg "-" || Ascii.eqb sg "+" then r' else r
                            | [] => r
                            end in
                  match r1 with
                  | d :: r2 => if is_digit d then skip_digits r2 else s3
                  | [] => s3
                  end
                else s3
              | [] => s3
              end in
    Some s4
  end.

(** [s] minus the literal [lit] at its head. *)
Fixpoint strip_prefix (lit s : list ascii) : option (list ascii) :=
  match lit, s with
  | [], _ => Some s
  | a :: lit', b :: s' => if Ascii.eqb a b then strip_prefix lit' s' else None
  | _ :: _, [] => None
  end.

(** The outcome of a scan: a value and the rest of the input, a
    [JSONDecodeError], or a recursion budget that was too small. *)
Inductive scan (A : Type) : Type :=
  | Scanned (v : A) (rest : list ascii)
  | DecodeError
  | OutOfFuel.
Arguments Scanned {A} v rest.
Arguments DecodeError {A}.
Arguments OutOfFuel {A}.

(** The loop of [_parse_array], entered before an item. *)
Fixpoint parse_items (value : list ascii -> scan json) (n : nat)
    (s : list ascii) : scan (list json) :=
  match n with
  | O => OutOfFuel
  | S n' =>
    match value s with
    | Scanned v rest =>
      match skip_ws rest with
      | c :: r =>
        if Ascii.eqb c "]" then Scanned [v] r
        else if Ascii.eqb c "," then
          match parse_items value n' (skip_ws r) with
          | Scanned vs rest' => Scanned (v :: vs) rest'
          | DecodeError => DecodeError
          | OutOfFuel => OutOfFuel
          end
        else DecodeError
      | [] => DecodeError
      end
    | DecodeError => DecodeError
    | OutOfFuel => OutOfFuel
    end
  end.

(** The loop of [_parse_object], entered before a key. *)
Fixpoint parse_members (value : list ascii -> scan json) (n : nat)
    (s : list ascii) : scan (list (list N * json)) :=
  match n with
  | O => OutOfFuel
  | S n' =>
    match s with
    | q :: s1 =>
      if Ascii.eqb q "034" then
        match scanstring s1 with
        | Some (key, s2) =>
          match skip_ws s2 with
          | colon :: s3 =>
            if Ascii.eqb colon ":" then
              match value (skip_ws s3) with
              | Scanned v rest =>
                match skip_ws rest with
                | c :: r =>
                  if Ascii.eqb c "}" then Scanned [(key, v)] r
                  else if Ascii.eqb c "," then
                    match parse_members value n' (skip_ws r) with
                    | Scanned kvs rest' => Scanned ((key, v) :: kvs) rest'
                    | DecodeError => DecodeError
                    | OutOfFuel => OutOfFuel
                    end
                  else DecodeError
                | [] => DecodeError
                end
              | DecodeError => DecodeError
              | OutOfFuel => OutOfFuel
              end
            else DecodeError
          | [] => DecodeError
          end
        | None => DecodeError
        end
      else DecodeError
    | [] => DecodeError
    end
  end.

(** [scan_once]: one JSON value at the head of [s].  [fuel] bounds the
    nesting depth and the number of items of a container. *)
Fixpoint scan_once (fuel : nat) (s : list ascii) : scan json :=
  match fuel with
  | O => OutOfFuel
  | S fuel' =>
    match s with
    | [] => DecodeError
    | c :: r =>
      if Ascii.eqb c "034" then
        match scanstring r with
        | Some (cs, rest) => Scanned (JString cs) rest
        | None => DecodeError
        end
      else if Ascii.eqb c "{" then
        match skip_ws r with
        | c' :: r' =>
          if Ascii.eqb c' "}" then Scanned (JObject []) r'
          else match parse_members (scan_once fuel') fuel' (c' :: r') with
               | Scanned kvs rest => Scanned (JObject kvs) rest
               | DecodeError => DecodeError
               | OutOfFuel => OutOfFuel
               end
        | [] => DecodeError
        end
      else if Ascii.eqb c "[" then
        match skip_ws r with
        | c' :: r' =>
          if Ascii.eqb c' "]" then Scanned (JArray []) r'
          else match parse_items (scan_once fuel') fuel' (c' :: r') with
               | Scanned vs rest => Scanned (JArray vs) rest
               | DecodeError => DecodeError
               | OutOfFuel => OutOfFuel
               end
        | [] => DecodeError
        end
      else
        match strip_prefix (text "null") s, strip_prefix (text "true") s,
              strip_prefix (text "false") s, strip_prefix (text "NaN") s,
              strip_prefix (text "Infinity") s, strip_prefix (text "-Infinity") s with
        | Some rest, _, _, _, _, _ => Scanned JNull rest
        | _, Some rest, _, _, _, _ => Scanned (JBool true) rest
        | _, _, Some rest, _, _, _ => Scanned (JBool false) rest
        | _, _, _, Some rest, _, _ => Scanned JNumber rest
        | _, _, _, _, Some rest, _ => Scanned JNumber rest
        | _, _, _, _, _, Some rest => Scanned JNumber rest
        | None, None, None, None, None, None =>
          match match_number s with
          | Some rest => Scanned JNumber rest
          | None => DecodeError
          end
        end
    end
  end.

(** [JSONDecoder.decode]: leading white space, one value, trailing white
    space, and nothing else.  [None] is a [JSONDecodeError].  The fuel is
    the length of the text, which is always enough ([loads_fuel] below);
    the limits of the interpreter (recursion depth, length of an integer
    literal) are not modelled. *)
Definition loads (s : list ascii) : option json :=
  match scan_once (S (length s)) (skip_ws s) with
  | Scanned v rest =>
    match skip_ws rest with
    | [] => Some v
    | _ :: _ => None
    end
  | DecodeError | OutOfFuel => None
  end.

End Json.

Import Json.

(** ** Data model *)

(** A film as [scrape_letterboxd_popular] returns it:
    [{'title': .., 'url': ..}]. *)
Record Film : Type := { film_title : string; film_url : string }.

(** A value of the cache dictionary: [{'title': .., 'streaming': ..}]. *)
Record CacheEntry : Type := { entry_title : string; entry_streaming : string }.

(** The result dictionary of [scrape_film_worker] and of the [except]
    branch of [main]. *)
Record Result : Type := {
  index : nat;
  title : string;
  url : string;
  streaming : string;
  cached : bool
}.

(** A call either returns or raises; [msg] is [str(e)]. *)
Inductive outcome (A : Type) : Type :=
  | Returned (v : A)
  | Raised (msg : string).
Arguments Returned {A} v.
Arguments Raised {A} msg.

#[global] Instance Film_eq_dec : EqDecision Film.
Proof. solve_decision. Defined.
#[global] Instance CacheEntry_eq_dec : EqDecision CacheEntry.
Proof. solve_decision. Defined.
#[global] Instance Result_eq_dec : EqDecision Result.
Proof. solve_decision. Defined.

(** ** The outside world *)

(** What [driver.page_source] holds of the "Where to watch" block, once
    parsed: no [div#watch], a [section.services] with the service names
    read off its [p.service] paragraphs, or only text, of which the lines
    that pass the filters of [scrape_streaming_info] are kept. *)
Inductive watch_div : Type :=
  | WithServices (services : list string)
  | WithoutServices (filtered_lines : list string).

Record Page : Type := { watch : option watch_div }.

(** What the discovery page yields: [driver.get] raises, the wait for the
    posters times out, or a list of poster containers, each of which gives
    a film or is skipped. *)
Inductive discovery : Type :=
  | DiscoveryRaises (msg : string)
  | DiscoveryTimeout
  | DiscoveryContainers (containers : list (option Film)).

(** The browser and the site.  Workers are told apart by the index of
    their film; [0] is the driver of [main]. *)
Record Env : Type := {
  chrome_error : nat -> option string;
  popular_page : discovery;
  film_page : nat -> string -> outcome Page;
  quit_error : nat -> option string
}.

(** The cache file [CACHE_FILE]: text, bytes that do not decode as text,
    or a file that cannot be opened for reading. *)
Inductive file : Type :=
  | FileText (content : string)
  | FileUndecodable
  | FileUnreadable.

(** [write_error = Some msg]: [open(CACHE_FILE, 'w')] raises
    [IOError(msg)]. *)
Record filesystem : Type := {
  cache_file : option file;
  write_error : option string
}.

(** Uses of the external fetch resource. *)
Inductive event : Type :=
  | DriverCreated (task : nat)
  | PageRequested (task : nat) (page_url : string)
  | DriverQuit (task : nat).

#[global] Instance event_eq_dec : EqDecision event.
Proof. solve_decision. Defined.

(** The lines [print] writes.  Banners, blank lines and the two lines of
    advice after a driver error are left out. *)
Inductive message : Type :=
  | MsgLoadedCache (cache_size : nat)
  | MsgDriverError (msg : string)
  | MsgFetchingPopular
  | MsgTimeout
  | MsgFound (n : nat)
  | MsgNoFilms
  | MsgDiscoveryError (msg : string)
  | MsgFetchedCached (t : string)
  | MsgFetchedNotCached (t : string)
  | MsgCached (t : string)
  | MsgErrorFetching (t : string) (msg : string)
  | MsgSaveWarning (msg : string)
  | MsgSummary (cached_count fetched_count : nat)
  | MsgResult (r : Result).

Record world : Type := {
  fs : filesystem;
  stdout : list message;
  events : list event
}.

(** Effects on the world, in state-passing style. *)
Definition M (A : Type) : Type := world -> A * world.

Definition ret {A} (x : A) : M A := fun w => (x, w).
Definition bind {A B} (m : M A) (k : A -> M B) : M B :=
  fun w => let (x, w') := m w in k x w'.

Notation "'let*' x ':=' m 'in' k" := (bind m (fun x => k))
  (at level 10, x name, m at level 100, k at level 200, only parsing).
Notation "m ';;' k" := (bind m (fun _ => k))
  (at level 100, k at level 200, right associativity, only parsing).

Definition print (m : message) : M unit :=
  fun w => (tt, {| fs := fs w; stdout := stdout w ++ [m]; events := events w |}).

Definition emit (e : event) : M unit :=
  fun w => (tt, {| fs := fs w; stdout := stdout w; events := events w ++ [e] |}).

(** ** Cache Store *)

Definition codepoints (s : string) : list N :=
  map N_of_ascii (list_ascii_of_string s).

Definition string_of_codepoints (cs : list N) : option string :=
  if forallb (fun n => n <? 256)%N cs
  then Some (string_of_list_ascii (map ascii_of_N cs))
  else None.

(** The dictionary a JSON object denotes: of two members with one key the
    later one wins. *)
Definition dict_of {A} (members : list (list N * A)) : gmap (list N) A :=
  list_to_map (reverse members).

Definition entry_of_json (v : json) : option CacheEntry :=
  match v with
  | JObject members =>
    let d := dict_of members in
    match d !! codepoints "title", d !! codepoints "streaming" with
    | Some (JString t), Some (JString s) =>
      if decide (size d = 2) then
        t' ← string_of_codepoints t;
        s' ← string_of_codepoints s;
        Some {| entry_title := t'; entry_streaming := s' |}
      else None
    | _, _ => None
    end
  | _ => None
  end.

Definition member_of_json (kv : list N * json) : option (string * CacheEntry) :=
  k ← string_of_codepoints kv.1;
  e ← entry_of_json kv.2;
  Some (k, e).

(** The JSON values that are a cache: an object whose values are objects
    with exactly a string ['title'] and a string ['streaming']. *)
Definition cache_of_json (v : json) : option (gmap string CacheEntry) :=
  match v with
  | JObject members =>
    kvs ← mapM member_of_json members;
    Some (list_to_map (reverse kvs))
  | _ => None
  end.

(** What [load_cache] hands to [main]: a cache, or another JSON value. *)
Inductive loaded : Type :=
  | Mapping (cache : gmap string CacheEntry)
  | OtherValue (v : json).

Definition value_of_json (v : json) : loaded :=
  match cache_of_json v with
  | Some c => Mapping c
  | None => OtherValue v
  end.

Definition fields_of_entry (e : CacheEntry) : list (string * string) :=
  [("title", entry_title e); ("streaming", entry_streaming e)].

(** An item of the cache as [json.dump] sees it: a key and a dictionary
    with two keys. *)
Definition dumped (kv : string * CacheEntry) : string * list (string * string) :=
  (kv.1, fields_of_entry kv.2).

(** [json.dump(cache, f, indent=2)]; the entries are written in the order
    of [map_to_list]. *)
Definition dumps (cache : gmap string CacheEntry) : string :=
  string_of_list_ascii (encode_outer (map dumped (map_to_list cache))).

(** [load_cache]: [{}] when the file is missing, when it cannot be opened
    ([IOError]) and when its text is not JSON ([JSONDecodeError]).  Text
    that cannot be decoded raises [UnicodeDecodeError], which the [except]
    clause does not list. *)
Definition load_cache : M (outcome loaded) :=
  fun w =>
    match cache_file (fs w) with
    | Some (FileText content) =>
      match loads (text content) with
      | Some v => (Returned (value_of_json v), w)
      | None => (Returned (Mapping ∅), w)
      end
    | Some FileUndecodable => (Raised "UnicodeDecodeError", w)
    | Some FileUnreadable => (Returned (Mapping ∅), w)
    | None => (Returned (Mapping ∅), w)
    end.

(** [save_cache]: the whole mapping replaces the file; an [IOError] is
    reported and nothing else happens. *)
Definition save_cache (cache : gmap string CacheEntry) : M unit :=
  fun w =>
    match write_error (fs w) with
    | None =>
      (tt, {| fs := {| cache_file := Some (FileText (dumps cache));
                       write_error := None |};
              stdout := stdout w; events := events w |})
    | Some e => print (MsgSaveWarning e) w
    end.

(** ** Fetch Worker *)

(** [setup_driver]: [None] in the source is [false] here. *)
Definition setup_driver (env : Env) (task : nat) : M bool :=
  match chrome_error env task with
  | None => emit (DriverCreated task) ;; ret true
  | Some e => print (MsgDriverError e) ;; ret false
  end.

(** The loop "remove duplicates while preserving order". *)
Definition unique_services (services : list string) : list string :=
  foldl (fun unique s => if decide (s ∈ unique) then unique else unique ++ [s])
        [] services.

Definition no_info : string := "No streaming info available".

(** [scrape_streaming_info]: every exception of the [try] body becomes the
    string ["Error: " + str(e)]. *)
Definition scrape_streaming_info (env : Env) (task : nat) (film_url : string) : M string :=
  emit (PageRequested task film_url) ;;
  match film_page env task film_url with
  | Raised e => ret ("Error: " +:+ e)
  | Returned page =>
    match watch page with
    | Some (WithServices services) =>
      match services with
      | [] => ret no_info
      | _ :: _ => ret (String.concat ", " (unique_services services))
      end
    | Some (WithoutServices filtered_lines) =>
      match filtered_lines with
      | line :: _ => ret (substring 0 100 line)
      | [] => ret no_info
      end
    | None => ret no_info
    end
  end.

(** [driver.quit()] in the [finally] clause of the worker. *)
Definition quit (env : Env) (task : nat) : M (outcome unit) :=
  match quit_error env task with
  | None => emit (DriverQuit task) ;; ret (Returned tt)
  | Some e => ret (Raised e)
  end.

(** [scrape_film_worker] *)
Definition scrape_film_worker (env : Env) (film_index : nat) (film : Film)
    (cache : gmap string CacheEntry) : M (outcome Result) :=
  match cache !! film_url film with
  | Some entry =>
    ret (Returned {| index := film_index; title := film_title film;
                     url := film_url film; streaming := entry_streaming entry;
                     cached := true |})
  | None =>
    let* driver := setup_driver env film_index in
    if negb driver then
      ret (Returned {| index := film_index; title := film_title film;
                       url := film_url film;
                       streaming := "Error: Could not create driver";
                       cached := false |})
    else
      let* streaming_info := scrape_streaming_info env film_index (film_url film) in
      let* released := quit env film_index in
      match released with
      | Returned _ =>
        ret (Returned {| index := film_index; title := film_title film;
                         url := film_url film; streaming := streaming_info;
                         cached := false |})
      | Raised e => ret (Raised e)
      end
  end.

(** ** Scheduler: the pool of [main] *)

Definition max_workers : nat := 3.

(** A submitted call [scrape_film_worker(i + 1, film, cache)]. *)
Abbreviation task := (nat * Film)%type.

(** The state of the [with ThreadPoolExecutor] block once every task is
    submitted: tasks waiting for a thread, tasks in flight with what their
    call will give, finished futures that [as_completed] has not yielded
    yet, and the variables of [main]. *)
Record pool : Type := {
  queue : list task;
  running : list (task * outcome Result);
  completed : list (task * outcome Result);
  results : list Result;
  cache : gmap string CacheEntry;
  w : world
}.

(** [should_cache] *)
Definition should_cache (streaming : string) : bool :=
  negb (String.eqb streaming EmptyString) &&
  negb (String.prefix "Not streaming" streaming) &&
  negb (String.prefix "Error:" streaming).

(** The body of [for future in as_completed(futures)]. *)
Definition collect (t : task) (o : outcome Result) (p : pool) : pool :=
  match o with
  | Returned result =>
    let results' := results p ++ [result] in
    if negb (cached result) then
      if should_cache (streaming result) then
        let cache' := <[url result := {| entry_title := title result;
                                         entry_streaming := streaming result |}]> (cache p) in
        let (_, w') := (save_cache cache' ;; print (MsgFetchedCached (title result))) (w p) in
        {| queue := queue p; running := running p; completed := completed p;
           results := results'; cache := cache'; w := w' |}
      else
        let (_, w') := print (MsgFetchedNotCached (title result)) (w p) in
        {| queue := queue p; running := running p; completed := completed p;
           results := results'; cache := cache p; w := w' |}
    else
      let (_, w') := print (MsgCached (title result)) (w p) in
      {| queue := queue p; running := running p; completed := completed p;
         results := results'; cache := cache p; w := w' |}
  | Raised e =>
    let (film_index, film) := t in
    let (_, w') := print (MsgErrorFetching (film_title film) e) (w p) in
    {| queue := queue p; running := running p; completed := completed p;
       results := results p ++
         [{| index := film_index; title := film_title film; url := film_url film;
             streaming := "Error: " +:+ e; cached := false |}];
       cache := cache p; w := w' |}
  end.

(** The transitions of the pool.
    - [Start]: a free thread takes the oldest waiting task and runs the
      worker, which reads the cache as it is then.
    - [Finish k]: the [k]-th task in flight ends; its future is done.
    - [Collect k]: [as_completed] yields the [k]-th finished future and
      [main] runs the loop body on it. *)
Inductive action : Type :=
  | Start
  | Finish (k : nat)
  | Collect (k : nat).

Definition step (env : Env) (a : action) (p : pool) : option pool :=
  match a with
  | Start =>
    match queue p with
    | (film_index, film) :: waiting =>
      if decide (length (running p) < max_workers)%nat then
        let (o, w') := scrape_film_worker env film_index film (cache p) (w p) in
        Some {| queue := waiting;
                running := running p ++ [((film_index, film), o)];
                completed := completed p; results := results p;
                cache := cache p; w := w' |}
      else None
    | [] => None
    end
  | Finish k =>
    match running p !! k with
    | Some t =>
      Some {| queue := queue p; running := delete k (running p);
              completed := completed p ++ [t]; results := results p;
              cache := cache p; w := w p |}
    | None => None
    end
  | Collect k =>
    match completed p !! k with
    | Some (t, o) =>
      Some (collect t o
              {| queue := queue p; running := running p;
                 completed := delete k (completed p); results := results p;
                 cache := cache p; w := w p |})
    | None => None
    end
  end.

(** A schedule is the list of the transitions taken, in order. *)
Fixpoint exec (env : Env) (schedule : list action) (p : pool) : option pool :=
  match schedule with
  | [] => Some p
  | a :: rest =>
    match step env a p with
    | Some p' => exec env rest p'
    | None => None
    end
  end.

(** [enumerate(films)] with [i + 1]. *)
Definition submit_all (films : list Film) : list task :=
  imap (fun i film => (i + 1, film)) films.

Definition submitted (films : list Film) (cache : gmap string CacheEntry)
    (w : world) : pool :=
  {| queue := submit_all films; running := []; completed := [];
     results := []; cache := cache; w := w |}.

(** The [with] block is left when every future has been yielded. *)
Definition all_collected (p : pool) : bool :=
  bool_decide (queue p = [] ∧ running p = [] ∧ completed p = []).

(** ** Result Aggregator *)

Fixpoint insert_by_index (r : Result) (sorted : list Result) : list Result :=
  match sorted with
  | [] => [r]
  | x :: rest =>
    if decide (index r ≤ index x)%nat then r :: sorted
    else x :: insert_by_index r rest
  end.

(** [results.sort(key=lambda x: x['index'])]: a stable sort. *)
Definition sort_by_index (results : list Result) : list Result :=
  foldr insert_by_index [] results.

Definition cached_count (results : list Result) : nat :=
  length (filter (fun r => cached r = true) results).

(** The summary and the lines of the report. *)
Definition report (results : list Result) : M unit :=
  fun w =>
    let sorted := sort_by_index results in
    (tt, {| fs := fs w;
            stdout := stdout w ++
              [MsgSummary (cached_count sorted) (length sorted - cached_count sorted)] ++
              map MsgResult sorted;
            events := events w |}).

(** ** [main] *)

Definition popular_url : string := "https://letterboxd.com/films/popular/this/week/".

(** [scrape_letterboxd_popular]: at most the first 12 containers are
    looked at. *)
Definition scrape_letterboxd_popular (env : Env) : M (outcome (list Film)) :=
  print MsgFetchingPopular ;;
  emit (PageRequested 0 popular_url) ;;
  match popular_page env with
  | DiscoveryRaises e => ret (Raised e)
  | DiscoveryTimeout => print MsgTimeout ;; ret (Returned [])
  | DiscoveryContainers containers => ret (Returned (omap id (take 12 containers)))
  end.

(** [main], for the run of the pool that [schedule] describes.  The result
    is [None] when [schedule] is not a complete run of the pool on the
    films found, and when the cache file holds a JSON value that is not a
    cache, on which the program is not modelled. *)
Definition main (env : Env) (schedule : list action) (w0 : world)
    : option (outcome unit * world) :=
  let (l, w1) := load_cache w0 in
  match l with
  | Raised e => Some (Raised e, w1)
  | Returned (OtherValue _) => None
  | Returned (Mapping cache) =>
    let (driver, w2) := (print (MsgLoadedCache (size cache)) ;; setup_driver env 0) w1 in
    if negb driver then Some (Returned tt, w2)
    else
      let (found, w3) := scrape_letterboxd_popular env w2 in
      match found with
      | Raised e => Some ((print (MsgDiscoveryError e) ;; quit env 0) w3)
      | Returned [] => Some ((print (MsgFound 0) ;; print MsgNoFilms ;; quit env 0) w3)
      | Returned films =>
        let (_, w4) := print (MsgFound (length films)) w3 in
        match exec env schedule (submitted films cache w4) with
        | Some p =>
          if all_collected p
          then Some ((report (results p) ;; quit env 0) (w p))
          else None
        | None => None
        end
      end
  end.

(** ** Notions used in the statements *)

(** The states of the pool that some schedule reaches. *)
Definition reachable (env : Env) (films : list Film)
    (cache0 : gmap string CacheEntry) (w0 : world) (p : pool) : Prop :=
  ∃ schedule, exec env schedule (submitted films cache0 w0) = Some p.

(** The schedule that runs the tasks one after the other. *)
Definition sequential (n : nat) : list action :=
  mjoin (replicate n [Start; Finish 0; Collect 0]).

Definition task_of (e : event) : nat :=
  match e with
  | DriverCreated i | PageRequested i _ | DriverQuit i => i
  end.

(** The availability lookups of a trace, for one task and for one
    identity. *)
Definition is_lookup_by (i : nat) (e : event) : bool :=
  match e with
  | PageRequested j _ => bool_decide (j = i)
  | _ => false
  end.

Definition is_lookup_of (u : string) (e : event) : bool :=
  match e with
  | PageRequested _ u' => bool_decide (u' = u)
  | _ => false
  end.

Definition count_where {A} (f : A -> bool) (l : list A) : nat :=
  length (List.filter f l).

(** An error sentinel, and the "no info" sentinel. *)
Definition is_error (s : string) : bool := String.prefix "Error:" s.
Definition is_no_info (s : string) : bool := String.eqb s no_info.

(** Two caches that differ at most in the titles they store. *)
Definition same_streaming (c1 c2 : gmap string CacheEntry) : Prop :=
  entry_streaming <$> c1 = entry_streaming <$> c2.

Definition empty_world (f : filesystem) : world :=
  {| fs := f; stdout := []; events := [] |}.

Definition no_file : filesystem := {| cache_file := None; write_error := None |}.

(** An environment in which every driver starts and quits, and every film
    page is [page]. *)
Definition calm_env (page : Page) : Env :=
  {| chrome_error := fun _ => None;
     popular_page := DiscoveryContainers [];
     film_page := fun _ _ => Returned page;
     quit_error := fun _ => None |}.

(** The string [scrape_streaming_info] returns, as a function of the page. *)
Definition availability_of (page : outcome Page) : string :=
  match page with
  | Raised e => "Error: " +:+ e
  | Returned page =>
    match watch page with
    | Some (WithServices []) => no_info
    | Some (WithServices services) => String.concat ", " (unique_services services)
    | Some (WithoutServices (line :: _)) => substring 0 100 line
    | Some (WithoutServices []) => no_info
    | None => no_info
    end
  end.

(** The result that the loop body of [main] appends for a future. *)
Definition result_of (t : task) (o : outcome Result) : Result :=
  match o with
  | Returned result => result
  | Raised e =>
    {| index := t.1; title := film_title t.2; url := film_url t.2;
       streaming := "Error: " +:+ e; cached := false |}
  end.

(** The task a result stands for: its index, title and URL. *)
Definition key_of_result (r : Result) : task :=
  (index r, {| film_title := title r; film_url := url r |}).

(** Every submitted task is in one place: waiting, in flight, finished or
    collected; and a finished call reports on its own task. *)
Definition accounted (films : list Film) (p : pool) : Prop :=
  queue p ++ (running p).*1 ++ (completed p).*1 ++ map key_of_result (results p)
    ≡ₚ submit_all films ∧
  Forall (fun x => key_of_result (result_of x.1 x.2) = x.1)
         (running p ++ completed p).


Definition by_index : relation Result := fun a b => index a ≤ index b.
Definition by_task_index : relation task := fun a b => a.1 ≤ b.1.

(** The lookups of a trace that [sel] selects, by task and URL, and the
    tasks that [sel] selects. *)
Definition lookups (sel : nat -> string -> bool) (evs : list event) : nat :=
  count_where (fun e => match e with
                        | PageRequested j u => sel j u
                        | _ => false
                        end) evs.

Definition selected (sel : nat -> string -> bool) (ts : list task) : nat :=
  count_where (fun t => sel t.1 (film_url t.2)) ts.



(** The lookups made so far are lookups of tasks that have left the
    queue. *)
Definition lookups_bounded (films : list Film) (w0 : world) (p : pool) : Prop :=
  ∃ evs, events (w p) = events w0 ++ evs ∧
         ∀ sel, lookups sel evs + selected sel (queue p)
                ≤ selected sel (submit_all films).

(** Two films with one URL, for a page without a "Where to watch" block. *)
Definition film_a : Film := {| film_title := "A"; film_url := "dup" |}.
Definition film_b : Film := {| film_title := "B"; film_url := "dup" |}.
Definition blank_page : Page := {| watch := None |}.

(** Two pools that differ at most in the cache file and in the titles
    their caches store. *)
Definition agree (p1 p2 : pool) : Prop :=
  queue p1 = queue p2 ∧ running p1 = running p2 ∧
  completed p1 = completed p2 ∧ results p1 = results p2 ∧
  same_streaming (cache p1) (cache p2) ∧
  stdout (w p1) = stdout (w p2) ∧ events (w p1) = events (w p2) ∧
  write_error (fs (w p1)) = write_error (fs (w p2)).

Definition film_x : Film :=
  {| film_title := "X"; film_url := "https://letterboxd.com/film/x/" |}.

Definition no_info_entry : CacheEntry :=
  {| entry_title := "X"; entry_streaming := no_info |}.

(** An environment whose discovery finds [film_x], whose page has no
    "Where to watch" block. *)
Definition env_x : Env :=
  {| chrome_error := fun _ => None;
     popular_page := DiscoveryContainers [Some film_x];
     film_page := fun _ _ => Returned blank_page;
     quit_error := fun _ => None |}.








(** A scanner that, on [s], does not stop for lack of fuel and leaves less
    input than it was given. *)
Definition consumes {A} (value : list ascii -> scan A) (s : list ascii) : Prop :=
  value s ≠ OutOfFuel ∧
  ∀ v rest, value s = Scanned v rest → length rest < length s.


(** Twelve films with URLs of their own. *)
Definition twelve_films : list Film :=
  map (fun n => {| film_title := "film"; film_url := String (ascii_of_nat n) EmptyString |})
      (seq 65 12).

(** A cache that knows the URL of [film_a], and one that differs from it
    in the title only. *)
Definition cache_a : gmap string CacheEntry :=
  {["dup" := {| entry_title := "An old title"; entry_streaming := "Netflix" |}]}.
Definition cache_a' : gmap string CacheEntry :=
  {["dup" := {| entry_title := "Another title"; entry_streaming := "Netflix" |}]}.

(** * Properties *)

(** ** The worker *)

Ltac unfold_effects :=
  unfold scrape_film_worker, setup_driver, scrape_streaming_info, quit,
    save_cache, print, emit, bind, ret in *.

Lemma scrape_streaming_info_spec env i u w0 :
  scrape_streaming_info env i u w0 =
    (availability_of (film_page env i u),
     {| fs := fs w0; stdout := stdout w0;
        events := events w0 ++ [PageRequested i u] |}).
Proof.
  unfold_effects. unfold availability_of.
  destruct (film_page env i u) as [[[[[|s l]|[|s l]]|]]|e]; reflexivity.
Qed.

(** The four ways through [scrape_film_worker]. *)
Lemma worker_hit env i f c w0 e :
  c !! film_url f = Some e →
  scrape_film_worker env i f c w0 =
    (Returned {| index := i; title := film_title f; url := film_url f;
                 streaming := entry_streaming e; cached := true |}, w0).
Proof. intros H. unfold scrape_film_worker. rewrite H. reflexivity. Qed.

Lemma worker_no_driver env i f c w0 e :
  c !! film_url f = None → chrome_error env i = Some e →
  scrape_film_worker env i f c w0 =
    (Returned {| index := i; title := film_title f; url := film_url f;
                 streaming := "Error: Could not create driver"; cached := false |},
     {| fs := fs w0; stdout := stdout w0 ++ [MsgDriverError e];
        events := events w0 |}).
Proof.
  intros H1 H2. unfold scrape_film_worker, setup_driver, bind, print, ret.
  rewrite H1, H2. reflexivity.
Qed.

Lemma worker_fetched env i f c w0 :
  c !! film_url f = None → chrome_error env i = None → quit_error env i = None →
  scrape_film_worker env i f c w0 =
    (Returned {| index := i; title := film_title f; url := film_url f;
                 streaming := availability_of (film_page env i (film_url f));
                 cached := false |},
     {| fs := fs w0; stdout := stdout w0;
        events := events w0 ++
          [DriverCreated i; PageRequested i (film_url f); DriverQuit i] |}).
Proof.
  intros H1 H2 H3. unfold scrape_film_worker, setup_driver, bind at 1 2.
  rewrite H1, H2. unfold emit, ret, bind at 1. simpl.
  unfold bind at 1. rewrite scrape_streaming_info_spec.
  unfold quit, bind, emit, ret. rewrite H3. simpl.
  rewrite <- !app_assoc. reflexivity.
Qed.

Lemma worker_quit_raises env i f c w0 e :
  c !! film_url f = None → chrome_error env i = None → quit_error env i = Some e →
  scrape_film_worker env i f c w0 =
    (Raised e,
     {| fs := fs w0; stdout := stdout w0;
        events := events w0 ++ [DriverCreated i; PageRequested i (film_url f)] |}).
Proof.
  intros H1 H2 H3. unfold scrape_film_worker, setup_driver, bind at 1 2.
  rewrite H1, H2. unfold emit, ret, bind at 1. simpl.
  unfold bind at 1. rewrite scrape_streaming_info_spec.
  unfold quit, bind, emit, ret. rewrite H3. simpl.
  rewrite <- !app_assoc. reflexivity.
Qed.

(** What every call of the worker has in common: the result names the
    task, the file system is left alone, nothing printed is taken back,
    and the events added belong to the task. *)
Lemma worker_frame env i f c w0 o w1 :
  scrape_film_worker env i f c w0 = (o, w1) →
  fs w1 = fs w0 ∧
  (∃ out, stdout w1 = stdout w0 ++ out) ∧
  (∃ evs, events w1 = events w0 ++ evs ∧
          (is_Some (c !! film_url f) → evs = [] ∧ stdout w1 = stdout w0) ∧
          Forall (fun e => task_of e = i) evs ∧
          count_where (is_lookup_by i) evs ≤ 1 ∧
          ∀ e, e ∈ evs → ∀ j u, e = PageRequested j u → j = i ∧ u = film_url f) ∧
  (∀ r, o = Returned r →
        index r = i ∧ title r = film_title f ∧ url r = film_url f ∧
        (cached r = true → ∃ e, c !! film_url f = Some e ∧
                                streaming r = entry_streaming e) ∧
        (cached r = false → c !! film_url f = None)).
Proof.
  intros H.
  assert (Hnil : ∀ (P : Prop),
    (is_Some (c !! film_url f) → P) →
    (is_Some (c !! film_url f) → [] = @nil event ∧ P) ∧
    Forall (fun e => task_of e = i) [] ∧
    count_where (is_lookup_by i) [] ≤ 1 ∧
    ∀ e, e ∈ @nil event → ∀ j u, e = PageRequested j u → j = i ∧ u = film_url f).
  { intros P HP. split; [auto|]. split; [constructor|].
    split; [unfold count_where; simpl; lia|].
    intros e He. by apply elem_of_nil in He. }
  destruct (c !! film_url f) as [e|] eqn:Hc.
  - rewrite (worker_hit _ _ _ _ _ _ Hc) in H. inversion H; subst; clear H.
    split; [done|]. split; [exists []; by rewrite app_nil_r|].
    split.
    + exists []. rewrite app_nil_r. split; [done|]. by apply Hnil.
    + intros r [= <-]. simpl.
      split; [done|]. split; [done|]. split; [done|].
      split; [eauto|discriminate].
  - destruct (chrome_error env i) as [e|] eqn:Hd.
    + rewrite (worker_no_driver _ _ _ _ _ _ Hc Hd) in H.
      inversion H; subst; clear H. simpl.
      split; [done|]. split; [by eexists|].
      split.
      * exists []. rewrite app_nil_r. split; [done|].
        apply Hnil. by intros [? ?].
      * intros r [= <-]. simpl.
        split; [done|]. split; [done|]. split; [done|].
        split; [discriminate|done].
    + destruct (quit_error env i) as [e|] eqn:Hq.
      * rewrite (worker_quit_raises _ _ _ _ _ _ Hc Hd Hq) in H.
        inversion H; subst; clear H. simpl.
        split; [done|]. split; [exists []; by rewrite app_nil_r|].
        split; [|discriminate].
        eexists; split; [reflexivity|].
        split; [by intros [? ?]|].
        split; [repeat constructor|].
        split.
        { unfold count_where. simpl. rewrite bool_decide_true by done. simpl. lia. }
        intros e' He' j u ->.
        apply elem_of_cons in He' as [?|He']; [discriminate|].
        apply list_elem_of_singleton in He'. by inversion He'.
      * rewrite (worker_fetched _ _ _ _ _ Hc Hd Hq) in H.
        inversion H; subst; clear H. simpl.
        split; [done|]. split; [exists []; by rewrite app_nil_r|].
        split.
        { eexists; split; [reflexivity|].
          split; [by intros [? ?]|].
          split; [repeat constructor|].
          split.
          { unfold count_where. simpl. rewrite bool_decide_true by done. simpl. lia. }
          intros e' He' j u ->.
          apply elem_of_cons in He' as [?|He']; [discriminate|].
          apply elem_of_cons in He' as [He'|He']; [by inversion He'|].
          apply list_elem_of_singleton in He'. discriminate. }
        intros r [= <-]. simpl.
        split; [done|]. split; [done|]. split; [done|].
        split; [discriminate|done].
Qed.

(** ** The pool: its transitions one by one *)


(** A property that every transition preserves holds along every
    schedule. *)
Lemma exec_invariant env (P : pool → Prop) :
  (∀ a p p', P p → step env a p = Some p' → P p') →
  ∀ schedule p p', P p → exec env schedule p = Some p' → P p'.
Proof.
  intros Hstep schedule. induction schedule as [|a rest IH]; intros p p' HP H.
  - by inversion H; subst.
  - simpl in H. destruct (step env a p) as [p1|] eqn:Hs; [|done].
    eapply IH; [|exact H]. eauto.
Qed.

Lemma collect_spec t o q :
  queue (collect t o q) = queue q ∧
  running (collect t o q) = running q ∧
  completed (collect t o q) = completed q ∧
  results (collect t o q) = results q ++ [result_of t o] ∧
  events (w (collect t o q)) = events (w q) ∧
  write_error (fs (w (collect t o q))) = write_error (fs (w q)) ∧
  (∃ out, stdout (w (collect t o q)) = stdout (w q) ++ out) ∧
  (cache (collect t o q) = cache q ∨
   ∃ r, o = Returned r ∧ cached r = false ∧ should_cache (streaming r) = true ∧
        cache (collect t o q) =
          <[url r := {| entry_title := title r; entry_streaming := streaming r |}]>
            (cache q)).
Proof.
  destruct o as [r|e]; simpl.
  - destruct (cached r) eqn:Hc; simpl.
    + repeat (split; [reflexivity|]). split; [by eexists|]. by left.
    + destruct (should_cache (streaming r)) eqn:Hs; simpl.
      * unfold save_cache, bind, print.
        destruct (write_error (fs (w q))) as [e|] eqn:He; simpl;
          repeat (split; [by rewrite ?He|]).
        -- split; [rewrite <- app_assoc; by eexists|]. right. by exists r.
        -- split; [by eexists|]. right. by exists r.
      * repeat (split; [reflexivity|]). split; [by eexists|]. by left.
  - destruct t as [i f]. simpl.
    repeat (split; [reflexivity|]). split; [by eexists|]. by left.
Qed.

(** The three transitions, read backwards. *)
Lemma step_cases env a p p' :
  step env a p = Some p' →
  (∃ i f waiting o w',
      a = Start ∧ queue p = (i, f) :: waiting ∧
      length (running p) < max_workers ∧
      scrape_film_worker env i f (cache p) (w p) = (o, w') ∧
      p' = {| queue := waiting; running := running p ++ [((i, f), o)];
              completed := completed p; results := results p;
              cache := cache p; w := w' |}) ∨
  (∃ k t,
      a = Finish k ∧ running p !! k = Some t ∧
      p' = {| queue := queue p; running := delete k (running p);
              completed := completed p ++ [t]; results := results p;
              cache := cache p; w := w p |}) ∨
  (∃ k t o,
      a = Collect k ∧ completed p !! k = Some (t, o) ∧
      p' = collect t o
             {| queue := queue p; running := running p;
                completed := delete k (completed p); results := results p;
                cache := cache p; w := w p |}).
Proof.
  intros H. destruct a as [|k|k]; simpl in H.
  - destruct (queue p) as [|[i f] waiting] eqn:Hq; [done|].
    destruct (decide (length (running p) < max_workers)) as [Hlt|]; [|done].
    destruct (scrape_film_worker env i f (cache p) (w p)) as [o w'] eqn:Hw.
    inversion H; subst. left. by exists i, f, waiting, o, w'.
  - destruct (running p !! k) as [t|] eqn:Hk; [|done].
    inversion H; subst. right; left. by exists k, t.
  - destruct (completed p !! k) as [[t o]|] eqn:Hk; [|done].
    inversion H; subst. right; right. by exists k, t, o.
Qed.

Lemma delete_lookup_Permutation {A} (l : list A) k x :
  l !! k = Some x → l ≡ₚ x :: delete k l.
Proof.
  revert k. induction l as [|y l IH]; intros [|k] H; simpl in *; try done.
  - by inversion H.
  - rewrite (IH k H) at 1. apply perm_swap.
Qed.

(** ** The pool: what holds in every reachable state *)

Lemma key_of_result_of_raised t e : key_of_result (result_of t (Raised e)) = t.
Proof. by destruct t as [i [tt u]]. Qed.

Lemma submitted_accounted films c w0 : accounted films (submitted films c w0).
Proof.
  split; simpl; [by rewrite app_nil_r|constructor].
Qed.

Lemma Permutation_start {A} (x : A) q r c m :
  q ++ (r ++ [x]) ++ c ++ m ≡ₚ (x :: q) ++ r ++ c ++ m.
Proof.
  simpl. rewrite <- (app_assoc r). simpl.
  rewrite app_assoc, <- Permutation_middle. by rewrite <- app_assoc.
Qed.

Lemma Permutation_finish {A} (x : A) q d c m :
  q ++ d ++ (c ++ [x]) ++ m ≡ₚ q ++ (x :: d) ++ c ++ m.
Proof.
  apply Permutation_app_head. simpl. rewrite <- (app_assoc c). simpl.
  rewrite app_assoc, <- Permutation_middle. by rewrite <- app_assoc.
Qed.

Lemma Permutation_collect {A} (x : A) q r d m :
  q ++ r ++ d ++ m ++ [x] ≡ₚ q ++ r ++ (x :: d) ++ m.
Proof.
  do 2 apply Permutation_app_head. simpl.
  by rewrite app_assoc, <- Permutation_cons_append.
Qed.

Lemma step_accounted env films a p p' :
  accounted films p → step env a p = Some p' → accounted films p'.
Proof.
  intros [Hperm Hall] Hs.
  apply step_cases in Hs
    as [(i & f & waiting & o & w' & -> & Hq & _ & Hw & ->)
       |[(k & t & -> & Hk & ->)|(k & t & o & -> & Hk & ->)]].
  - split; simpl.
    + rewrite <- Hperm, Hq, fmap_app. apply Permutation_start.
    + rewrite <- app_assoc. simpl.
      apply Forall_app in Hall as [Hr Hc].
      apply Forall_app. split; [done|]. constructor; [|done]. simpl.
      destruct o as [r|e]; [|apply key_of_result_of_raised].
      apply worker_frame in Hw as (_ & _ & _ & Hr').
      destruct (Hr' r eq_refl) as (? & ? & ? & _). simpl.
      unfold key_of_result. rewrite H, H0, H1. by destruct f.
  - pose proof (delete_lookup_Permutation _ _ _ Hk) as Hd.
    split; simpl.
    + rewrite <- Hperm, fmap_app.
      etrans; [apply Permutation_finish|].
      apply Permutation_app_head, Permutation_app_tail.
      symmetry. exact (fmap_Permutation fst _ _ Hd).
    + rewrite app_assoc. apply Forall_app.
      rewrite Forall_app, Hd, Forall_cons in Hall.
      destruct Hall as [[Ht Hr] Hc].
      split; [|by constructor]. by apply Forall_app.
  - pose proof (delete_lookup_Permutation _ _ _ Hk) as Hd.
    unfold accounted.
    destruct (collect_spec t o
      {| queue := queue p; running := running p;
         completed := delete k (completed p); results := results p;
         cache := cache p; w := w p |}) as (-> & -> & -> & -> & _). simpl.
    assert (Hkey : key_of_result (result_of t o) = t).
    { rewrite Forall_forall in Hall. apply (Hall (t, o)).
      apply elem_of_app. right. by eapply list_elem_of_lookup_2. }
    split.
    + rewrite <- Hperm, map_app. simpl. rewrite Hkey.
      etrans; [apply Permutation_collect|].
      do 2 apply Permutation_app_head. apply Permutation_app_tail.
      symmetry. exact (fmap_Permutation fst _ _ Hd).
    + rewrite Forall_app, Hd, Forall_cons in Hall.
      destruct Hall as [Hr [_ Hc]]. by apply Forall_app.
Qed.

Lemma exec_accounted env films c w0 schedule p :
  exec env schedule (submitted films c w0) = Some p → accounted films p.
Proof.
  apply (exec_invariant env (accounted films)).
  - intros a q q'. apply step_accounted.
  - apply submitted_accounted.
Qed.








(** A transition keeps the number of tasks in flight within the bound. *)
Lemma step_in_flight env a p p' :
  length (running p) ≤ max_workers → step env a p = Some p' →
  length (running p') ≤ max_workers.
Proof.
  intros Hb Hs.
  apply step_cases in Hs
    as [(i & f & waiting & o & w' & -> & Hq & Hlt & Hw & ->)
       |[(k & t & -> & Hk & ->)|(k & t & o & -> & Hk & ->)]].
  - simpl. rewrite length_app. simpl. lia.
  - simpl. pose proof (lookup_lt_Some _ _ _ Hk).
    rewrite length_delete by eauto. lia.
  - by destruct (collect_spec t o
      {| queue := queue p; running := running p;
         completed := delete k (completed p); results := results p;
         cache := cache p; w := w p |}) as (_ & -> & _).
Qed.

(** ** The aggregator *)

Lemma insert_by_index_Permutation r l : insert_by_index r l ≡ₚ r :: l.
Proof.
  induction l as [|x l IH]; simpl; [done|].
  destruct (decide (index r ≤ index x)); [done|].
  rewrite IH. apply perm_swap.
Qed.

Lemma sort_by_index_Permutation l : sort_by_index l ≡ₚ l.
Proof.
  induction l as [|x l IH]; simpl; [done|].
  by rewrite insert_by_index_Permutation, IH.
Qed.

Lemma insert_by_index_sorted r l :
  StronglySorted by_index l → StronglySorted by_index (insert_by_index r l).
Proof.
  induction 1 as [|x l Hl IH Hx]; simpl.
  - repeat constructor.
  - destruct (decide (index r ≤ index x)) as [Hle|Hgt].
    + constructor; [by constructor|].
      constructor; [done|].
      eapply Forall_impl; [exact Hx|]. unfold by_index. intros; simpl in *; lia.
    + constructor; [done|].
      rewrite insert_by_index_Permutation. constructor; [|done].
      unfold by_index. lia.
Qed.

Lemma sort_by_index_sorted l : StronglySorted by_index (sort_by_index l).
Proof.
  induction l as [|x l IH]; simpl; [constructor|].
  by apply insert_by_index_sorted.
Qed.

(** The sort is stable: results with one index keep their order. *)
Lemma insert_by_index_stable x s i :
  List.filter (fun r => bool_decide (index r = i)) (insert_by_index x s) =
  List.filter (fun r => bool_decide (index r = i)) (x :: s).
Proof.
  induction s as [|y s IH]; [done|].
  cbn [insert_by_index].
  destruct (decide (index x ≤ index y)) as [Hle|Hgt]; [done|].
  cbn [List.filter] in *. rewrite IH.
  destruct (bool_decide_reflect (index y = i)) as [Hy|Hy];
    destruct (bool_decide_reflect (index x = i)) as [Hx|Hx]; try done.
  lia.
Qed.

Lemma sort_by_index_stable l i :
  List.filter (fun r => bool_decide (index r = i)) (sort_by_index l) =
  List.filter (fun r => bool_decide (index r = i)) l.
Proof.
  induction l as [|x l IH]; [done|].
  cbn [sort_by_index foldr]. rewrite insert_by_index_stable.
  cbn [List.filter]. unfold sort_by_index in IH. by rewrite IH.
Qed.

Lemma submit_all_shift k (films : list Film) x :
  x ∈ imap (fun i film => (i + k, film)) films →
  ∃ i film, x = (i + k, film) ∧ films !! i = Some film.
Proof. intros H. by apply elem_of_lookup_imap_1 in H. Qed.

Lemma imap_sorted k (films : list Film) :
  StronglySorted by_task_index (imap (fun i film => (i + k, film)) films).
Proof.
  revert k. induction films as [|f films IH]; intros k; simpl; [constructor|].
  rewrite (imap_ext _ (fun i film => (i + S k, film)))
    by (intros; simpl; f_equal; lia).
  constructor; [apply IH|].
  apply Forall_forall. intros x [i [film [-> _]]]%submit_all_shift.
  unfold by_task_index. simpl. lia.
Qed.

Lemma submit_all_sorted films : StronglySorted by_task_index (submit_all films).
Proof. apply imap_sorted. Qed.

Lemma submit_all_fst films : (submit_all films).*1 = seq 1 (length films).
Proof.
  unfold submit_all. generalize 1 as k.
  induction films as [|f films IH]; intros k; simpl; [done|].
  f_equal. rewrite <- IH. f_equal.
  apply imap_ext. intros; simpl; f_equal; lia.
Qed.

Lemma submit_all_inj films t1 t2 :
  t1 ∈ submit_all films → t2 ∈ submit_all films → t1.1 = t2.1 → t1 = t2.
Proof.
  intros (i1 & f1 & -> & H1)%submit_all_shift (i2 & f2 & -> & H2)%submit_all_shift.
  simpl. intros Hi. assert (i1 = i2) as -> by lia. congruence.
Qed.


(** When the [with] block is left, the results are the tasks. *)
Lemma collected_results env films c w0 schedule p :
  exec env schedule (submitted films c w0) = Some p →
  all_collected p = true →
  map key_of_result (results p) ≡ₚ submit_all films.
Proof.
  intros He Ha. apply exec_accounted in He as [Hperm _].
  unfold all_collected in Ha. rewrite bool_decide_eq_true in Ha.
  destruct Ha as (Hq & Hr & Hc). by rewrite Hq, Hr, Hc in Hperm.
Qed.

(** The sorted results are the submitted tasks, in the order of
    submission. *)
Lemma sorted_results env films c w0 schedule p :
  exec env schedule (submitted films c w0) = Some p →
  all_collected p = true →
  map key_of_result (sort_by_index (results p)) = submit_all films.
Proof.
  intros He Ha.
  pose proof (collected_results _ _ _ _ _ _ He Ha) as Hperm.
  apply (StronglySorted_unique_strong by_task_index).
  - intros x1 x2 H1 H2 H12 H21.
    apply (submit_all_inj films); [|done|unfold by_task_index in *; lia].
    rewrite <- Hperm. revert H1.
    by rewrite (fmap_Permutation key_of_result _ _ (sort_by_index_Permutation _)).
  - apply (StronglySorted_fmap key_of_result by_index); [done|].
    apply sort_by_index_sorted.
  - apply submit_all_sorted.
  - rewrite <- Hperm.
    apply (fmap_Permutation key_of_result), sort_by_index_Permutation.
Qed.



(** ** Cache hits and fetches *)

(** The events of one call of the worker. *)
Lemma worker_events env i f c w0 o w1 :
  scrape_film_worker env i f c w0 = (o, w1) →
  ∃ evs, events w1 = events w0 ++ evs ∧
    (evs = [] ∨
     c !! film_url f = None ∧
     (evs = [DriverCreated i; PageRequested i (film_url f)] ∨
      evs = [DriverCreated i; PageRequested i (film_url f); DriverQuit i])).
Proof.
  intros H.
  destruct (c !! film_url f) as [e|] eqn:Hc.
  { rewrite (worker_hit _ _ _ _ _ _ Hc) in H. inversion H; subst.
    exists []. rewrite app_nil_r. auto. }
  destruct (chrome_error env i) as [e|] eqn:Hd.
  { rewrite (worker_no_driver _ _ _ _ _ _ Hc Hd) in H. inversion H; subst.
    exists []. simpl. rewrite app_nil_r. auto. }
  destruct (quit_error env i) as [e|] eqn:Hq.
  - rewrite (worker_quit_raises _ _ _ _ _ _ Hc Hd Hq) in H. inversion H; subst.
    eexists. split; [reflexivity|]. auto.
  - rewrite (worker_fetched _ _ _ _ _ Hc Hd Hq) in H. inversion H; subst.
    eexists. split; [reflexivity|]. auto.
Qed.





(** ** Fetches per item and per identity *)

Lemma count_where_app {A} (f : A → bool) l1 l2 :
  count_where f (l1 ++ l2) = count_where f l1 + count_where f l2.
Proof. unfold count_where. by rewrite List.filter_app, length_app. Qed.

Lemma count_where_cons {A} (f : A → bool) x l :
  count_where f (x :: l) = (if f x then 1 else 0) + count_where f l.
Proof. unfold count_where. simpl. by destruct (f x). Qed.

Lemma worker_lookups env i f c w0 o w1 sel :
  scrape_film_worker env i f c w0 = (o, w1) →
  ∃ evs, events w1 = events w0 ++ evs ∧
         lookups sel evs ≤ if sel i (film_url f) then 1 else 0.
Proof.
  intros H. destruct (worker_events _ _ _ _ _ _ _ H) as (evs & Hevs & Hcases).
  exists evs. split; [done|].
  destruct Hcases as [-> | [_ [-> | ->]]]; unfold lookups, count_where; simpl;
    destruct (sel i (film_url f)); simpl; lia.
Qed.

Lemma step_lookups_bounded env films w0 a p p' :
  lookups_bounded films w0 p → step env a p = Some p' →
  lookups_bounded films w0 p'.
Proof.
  intros (evs & Hevs & Hb) Hs.
  apply step_cases in Hs
    as [(i & f & waiting & o & w' & -> & Hq & _ & Hw & ->)
       |[(k & t & -> & Hk & ->)|(k & t & o & -> & Hk & ->)]].
  - destruct (worker_events _ _ _ _ _ _ _ Hw) as (new & Hnew & _).
    exists (evs ++ new). simpl. rewrite Hnew, Hevs, app_assoc. split; [done|].
    intros sel. specialize (Hb sel).
    destruct (worker_lookups _ _ _ _ _ _ _ sel Hw) as (new' & Hnew' & Hle).
    rewrite Hnew in Hnew'. apply app_inv_head in Hnew'. subst new'.
    unfold lookups in *. rewrite count_where_app.
    unfold selected in Hb. rewrite Hq, count_where_cons in Hb. simpl in Hb.
    unfold selected. lia.
  - by exists evs.
  - unfold lookups_bounded.
    destruct (collect_spec t o
      {| queue := queue p; running := running p;
         completed := delete k (completed p); results := results p;
         cache := cache p; w := w p |}) as (-> & _ & _ & _ & -> & _).
    by exists evs.
Qed.

Lemma exec_lookups_bounded env films c0 w0 schedule p :
  exec env schedule (submitted films c0 w0) = Some p → lookups_bounded films w0 p.
Proof.
  apply (exec_invariant env (lookups_bounded films w0)).
  - intros a q q'. apply step_lookups_bounded.
  - exists []. simpl. rewrite app_nil_r. split; [done|].
    intros sel. unfold lookups, count_where. simpl. lia.
Qed.

Lemma count_where_none {A} (f : A → bool) l :
  (∀ x, x ∈ l → f x = false) → count_where f l = 0.
Proof.
  induction l as [|x l IH]; intros H; [done|].
  rewrite count_where_cons, (H x) by left.
  rewrite IH; [done|]. intros y Hy. apply H. by right.
Qed.

Lemma selected_by_index films i :
  selected (fun j _ => bool_decide (j = i)) (submit_all films) ≤ 1.
Proof.
  unfold selected.
  assert (Hnd : NoDup (submit_all films).*1).
  { rewrite submit_all_fst. apply NoDup_seq. }
  induction (submit_all films) as [|t l IH]; [unfold count_where; simpl; lia|].
  rewrite fmap_cons in Hnd. apply NoDup_cons in Hnd as [Ht Hl].
  rewrite count_where_cons. simpl.
  destruct (bool_decide_reflect (t.1 = i)) as [Hi|Hi]; [|by apply IH].
  rewrite count_where_none; [lia|].
  intros x Hx. apply bool_decide_eq_false. intros Hxi.
  apply Ht. rewrite Hi, <- Hxi. by apply list_elem_of_fmap_2.
Qed.

Lemma selected_by_url films u :
  selected (fun _ v => bool_decide (v = u)) (submit_all films) =
  count_where (fun f => bool_decide (film_url f = u)) films.
Proof.
  unfold selected, submit_all. generalize 1 as k.
  induction films as [|f films IH]; intros k; [done|].
  rewrite imap_cons, !count_where_cons. simpl. f_equal.
  rewrite <- (IH (S k)). f_equal.
  apply imap_ext. intros; simpl; f_equal; lia.
Qed.

(** C3, the claim as the code has it: an item is looked up at most once,
    and an identity at most as often as there are items that share it. *)
Theorem at_most_one_fetch_per_item env films cache0 w0 p :
  reachable env films cache0 w0 p →
  ∃ evs, events (w p) = events w0 ++ evs ∧
    (∀ i, count_where (is_lookup_by i) evs ≤ 1) ∧
    (∀ u, count_where (is_lookup_of u) evs
          ≤ count_where (fun f => bool_decide (film_url f = u)) films).
Proof.
  intros [schedule He].
  destruct (exec_lookups_bounded _ _ _ _ _ _ He) as (evs & Hevs & Hb).
  exists evs. split; [done|]. split.
  - intros i. pose proof (Hb (fun j _ => bool_decide (j = i))) as H.
    pose proof (selected_by_index films i).
    change (count_where (is_lookup_by i) evs)
      with (lookups (fun j _ => bool_decide (j = i)) evs). lia.
  - intros u. pose proof (Hb (fun _ v => bool_decide (v = u))) as H.
    rewrite selected_by_url in H.
    change (count_where (is_lookup_of u) evs)
      with (lookups (fun _ v => bool_decide (v = u)) evs). lia.
Qed.

(** C3 as stated fails: two films with one URL and an empty cache, both
    started before either is collected, are both looked up. *)
Lemma duplicate_identity_fetched_twice :
  ∃ p, exec (calm_env blank_page)
         [Start; Start; Finish 0; Finish 0; Collect 0; Collect 0]
         (submitted [film_a; film_b] ∅ (empty_world no_file)) = Some p ∧
       all_collected p = true ∧
       events (w p) =
         [DriverCreated 1; PageRequested 1 "dup"; DriverQuit 1;
          DriverCreated 2; PageRequested 2 "dup"; DriverQuit 2] ∧
       ¬ count_where (is_lookup_of "dup") (events (w p)) ≤ 1.
Proof.
  eexists. split; [vm_compute; reflexivity|].
  split; [by vm_compute|]. split; [by vm_compute|].
  vm_compute. lia.
Qed.

(** ** What is written to the cache *)

Lemma should_cache_sound s :
  should_cache s = true → s ≠ EmptyString ∧ is_error s = false.
Proof.
  unfold should_cache, is_error. rewrite !andb_true_iff, !negb_true_iff.
  intros [[H1 _] H2]. split; [|done]. by apply String.eqb_neq.
Qed.

(** An entry of the cache was loaded or passed [should_cache]: error
    results and empty results are never written. *)
Lemma cache_entries_pass_should_cache env films cache0 w0 schedule p u e :
  exec env schedule (submitted films cache0 w0) = Some p →
  cache p !! u = Some e →
  cache0 !! u = Some e ∨
  (entry_streaming e ≠ EmptyString ∧ is_error (entry_streaming e) = false).
Proof.
  intros He. revert u e. revert He.
  apply (exec_invariant env (fun p => ∀ u e, cache p !! u = Some e →
    cache0 !! u = Some e ∨
    (entry_streaming e ≠ EmptyString ∧ is_error (entry_streaming e) = false))); [|auto].
  intros a q q' Hinv Hs u e.
  apply step_cases in Hs
    as [(i & f & waiting & o & w' & -> & Hq & _ & Hw & ->)
       |[(k & t & -> & Hk & ->)|(k & t & o & -> & Hk & ->)]];
    [apply Hinv..|].
  destruct (collect_spec t o
    {| queue := queue q; running := running q;
       completed := delete k (completed q); results := results q;
       cache := cache q; w := w q |})
    as (_ & _ & _ & _ & _ & _ & _ & [->|(r & -> & _ & Hsc & ->)]);
    [apply Hinv|]. simpl.
  destruct (decide (url r = u)) as [->|Hne].
  - rewrite lookup_insert_eq. intros [= <-]. right. simpl.
    by apply should_cache_sound.
  - rewrite lookup_insert_ne by done. apply Hinv.
Qed.

(** C1, where the code departs from it: the "no info" string passes
    [should_cache], so a film whose page has no "Where to watch" block is
    written to the cache and to the cache file. *)
Theorem no_info_result_is_cached :
  is_no_info no_info = true ∧
  should_cache no_info = true ∧
  (∃ p, exec env_x [Start; Finish 0; Collect 0]
          (submitted [film_x] ∅ (empty_world no_file)) = Some p ∧
        results p = [{| index := 1; title := "X"; url := film_url film_x;
                        streaming := no_info; cached := false |}] ∧
        cache p !! film_url film_x = Some no_info_entry ∧
        cache_file (fs (w p)) =
          Some (FileText (dumps {[film_url film_x := no_info_entry]}))) ∧
  (∃ w1, main env_x [Start; Finish 0; Collect 0] (empty_world no_file)
           = Some (Returned (), w1) ∧
         cache_file (fs w1) =
           Some (FileText (dumps {[film_url film_x := no_info_entry]})) ∧
         load_cache w1 =
           (Returned (Mapping {[film_url film_x := no_info_entry]}), w1)).
Proof.
  split; [done|]. split; [done|]. split.
  - eexists. split; [vm_compute; reflexivity|]. by vm_compute.
  - eexists. split; [vm_compute; reflexivity|]. by vm_compute.
Qed.

(** ** Totality of the worker *)



(** ** The title stored in a cache entry *)

Lemma same_streaming_lookup c1 c2 u :
  same_streaming c1 c2 →
  entry_streaming <$> (c1 !! u) = entry_streaming <$> (c2 !! u).
Proof. intros H. by rewrite <- !lookup_fmap, H. Qed.

Lemma same_streaming_insert c1 c2 u e :
  same_streaming c1 c2 → same_streaming (<[u := e]> c1) (<[u := e]> c2).
Proof. unfold same_streaming. intros H. by rewrite !fmap_insert, H. Qed.

(** The worker gives the same answer, prints the same and uses the
    browser the same way for two caches that agree on the availability
    they store. *)
Lemma worker_agree env i f c1 c2 w1 w2 :
  same_streaming c1 c2 →
  stdout w1 = stdout w2 → events w1 = events w2 →
  write_error (fs w1) = write_error (fs w2) →
  ∃ o w1' w2',
    scrape_film_worker env i f c1 w1 = (o, w1') ∧
    scrape_film_worker env i f c2 w2 = (o, w2') ∧
    stdout w1' = stdout w2' ∧ events w1' = events w2' ∧
    write_error (fs w1') = write_error (fs w2').
Proof.
  intros Hs Ho He Hf.
  pose proof (same_streaming_lookup _ _ (film_url f) Hs) as Hl.
  destruct (c1 !! film_url f) as [e1|] eqn:H1;
    destruct (c2 !! film_url f) as [e2|] eqn:H2; try done.
  - rewrite (worker_hit _ _ _ _ _ _ H1), (worker_hit _ _ _ _ _ _ H2).
    simpl in Hl. inversion Hl as [Hst]. rewrite Hst. by do 3 eexists.
  - destruct (chrome_error env i) as [e|] eqn:Hd.
    { rewrite (worker_no_driver _ _ _ _ _ _ H1 Hd),
              (worker_no_driver _ _ _ _ _ _ H2 Hd).
      do 3 eexists. simpl. by rewrite Ho. }
    destruct (quit_error env i) as [e|] eqn:Hq.
    + rewrite (worker_quit_raises _ _ _ _ _ _ H1 Hd Hq),
              (worker_quit_raises _ _ _ _ _ _ H2 Hd Hq).
      do 3 eexists. simpl. by rewrite He.
    + rewrite (worker_fetched _ _ _ _ _ H1 Hd Hq),
              (worker_fetched _ _ _ _ _ H2 Hd Hq).
      do 3 eexists. simpl. by rewrite He.
Qed.

Lemma collect_agree t o q1 q2 :
  agree q1 q2 → agree (collect t o q1) (collect t o q2).
Proof.
  intros (Hq & Hr & Hc & Hres & Hs & Ho & He & Hf).
  unfold agree, collect.
  destruct o as [r|e].
  - destruct (cached r); simpl.
    + by rewrite Hq, Hr, Hc, Hres, Ho, He, Hf.
    + destruct (should_cache (streaming r)); simpl.
      * unfold save_cache, bind, print. rewrite <- Hf.
        destruct (write_error (fs (w q1))) as [e|] eqn:Hw; simpl;
          rewrite Hq, Hr, Hc, Hres, Ho, He;
          repeat split;
          first [done | by apply same_streaming_insert | congruence].
      * by rewrite Hq, Hr, Hc, Hres, Ho, He, Hf.
  - destruct t as [i f]. simpl. by rewrite Hq, Hr, Hc, Hres, Ho, He, Hf.
Qed.

Lemma step_agree env a p1 p2 :
  agree p1 p2 →
  match step env a p1, step env a p2 with
  | Some p1', Some p2' => agree p1' p2'
  | None, None => True
  | _, _ => False
  end.
Proof.
  intros Hag. pose proof Hag as (Hq & Hr & Hc & Hres & Hs & Ho & He & Hf).
  destruct a as [|k|k]; simpl.
  - rewrite <- Hq, <- Hr. destruct (queue p1) as [|[i f] waiting]; [done|].
    destruct (decide (length (running p1) < max_workers)); [|done].
    destruct (worker_agree env i f _ _ _ _ Hs Ho He Hf)
      as (o & w1' & w2' & -> & -> & Ho' & He' & Hf').
    unfold agree. simpl. by rewrite Hc, Hres.
  - rewrite <- Hr. destruct (running p1 !! k) as [t|]; [|done].
    unfold agree. simpl. by rewrite Hq, Hc, Hres.
  - rewrite <- Hc. destruct (completed p1 !! k) as [[t o]|]; [|done].
    apply collect_agree. unfold agree. simpl. by rewrite Hq, Hr, Hres.
Qed.

Lemma exec_agree env schedule p1 p2 :
  agree p1 p2 →
  match exec env schedule p1, exec env schedule p2 with
  | Some p1', Some p2' => agree p1' p2'
  | None, None => True
  | _, _ => False
  end.
Proof.
  revert p1 p2. induction schedule as [|a rest IH]; intros p1 p2 Hag; simpl.
  - done.
  - pose proof (step_agree env a p1 p2 Hag) as H.
    destruct (step env a p1), (step env a p2); try done. by apply IH.
Qed.

(** C10: the title of a cache hit is the title of the film as discovered,
    and the title stored in the cache is not read.  Two caches that store
    the same availability under the same URLs, whatever titles they store,
    give the same calls of the worker and, along every schedule, the same
    tasks, results, output and events, hence the same report.  A fresh
    result that is cached is stored with the title of the result. *)
Theorem stored_title_is_not_read env films c1 c2 w0 schedule :
  same_streaming c1 c2 →
  (∀ i f e w1, c1 !! film_url f = Some e →
     ∃ r, scrape_film_worker env i f c1 w1 = (Returned r, w1) ∧
          title r = film_title f ∧ cached r = true) ∧
  (∀ i f w1, fst (scrape_film_worker env i f c1 w1) =
             fst (scrape_film_worker env i f c2 w1)) ∧
  match exec env schedule (submitted films c1 w0),
        exec env schedule (submitted films c2 w0) with
  | Some p1, Some p2 =>
    agree p1 p2 ∧ sort_by_index (results p1) = sort_by_index (results p2)
  | None, None => True
  | _, _ => False
  end ∧
  (∀ t r q, cached r = false → should_cache (streaming r) = true →
     cache (collect t (Returned r) q) !! url r =
       Some {| entry_title := title r; entry_streaming := streaming r |}).
Proof.
  intros Hs. split; [|split; [|split]].
  - intros i f e w1 Hc. rewrite (worker_hit _ _ _ _ _ _ Hc). by eexists.
  - intros i f w1.
    by destruct (worker_agree env i f c1 c2 w1 w1 Hs eq_refl eq_refl eq_refl)
      as (o & w1' & w2' & -> & -> & _).
  - assert (Hag : agree (submitted films c1 w0) (submitted films c2 w0)).
    { unfold agree. simpl. by repeat split. }
    pose proof (exec_agree env schedule _ _ Hag) as H.
    destruct (exec env schedule (submitted films c1 w0)) as [p1|],
             (exec env schedule (submitted films c2 w0)) as [p2|]; try done.
    split; [done|]. destruct H as (_ & _ & _ & -> & _). done.
  - intros t r q Hc Hsc. simpl. rewrite Hc, Hsc. simpl.
    unfold save_cache, bind, print.
    destruct (write_error (fs (w q))); simpl; apply lookup_insert_eq.
Qed.

(** ** The cache file *)

(** *** The scanner has fuel enough *)

Lemma length_skip_ws s : length (skip_ws s) ≤ length s.
Proof.
  induction s as [|c s IH]; simpl; [lia|].
  destruct (is_whitespace c); simpl; lia.
Qed.

Lemma length_skip_digits s : length (skip_digits s) ≤ length s.
Proof.
  induction s as [|c s IH]; simpl; [lia|].
  destruct (is_digit c); simpl; lia.
Qed.

(** A string, a literal and a number each use up some input. *)
Lemma length_scanstring s cs rest :
  scanstring s = Some (cs, rest) → length rest < length s.
Proof.
  remember (length s) as n eqn:Hn.
  revert s cs rest Hn. induction (lt_wf n) as [n _ IH].
  intros s cs rest -> H.
  destruct s as [|c r]; [done|]. simpl in H.
  destruct (Ascii.eqb c "034").
  { inversion H; subst. simpl. lia. }
  assert (Hsimple : ∀ (x : N) (r' : list ascii),
    length r' < length (c :: r) →
    match scanstring r' with
    | Some (cs0, rest0) => Some (x :: cs0, rest0)
    | None => None
    end = Some (cs, rest) → length rest < length (c :: r)).
  { intros x r' Hr' Hm. destruct (scanstring r') as [[cs0 rest0]|] eqn:Hs; [|done].
    inversion Hm; subst.
    specialize (IH (length r') Hr' r' cs0 rest eq_refl Hs). lia. }
  destruct (Ascii.eqb c "\").
  - destruct r as [|e r']; [done|].
    repeat match type of H with
    | (if ?b then _ else _) = _ => destruct b; [eapply (Hsimple _ r'); [simpl; lia|exact H]|]
    end.
    destruct (Ascii.eqb e "u"); [|done].
    destruct r' as [|h1 [|h2 [|h3 [|h4 r'']]]]; try done.
    destruct (hex_value h1), (hex_value h2), (hex_value h3), (hex_value h4); try done.
    eapply (Hsimple _ r''); [simpl; lia|exact H].
  - destruct (N_of_ascii c <? 32)%N; [done|].
    eapply (Hsimple _ r); [simpl; lia|exact H].
Qed.

Lemma length_strip_prefix lit s rest :
  strip_prefix lit s = Some rest → length rest + length lit = length s.
Proof.
  revert s. induction lit as [|a lit IH]; intros s H; simpl in *.
  - inversion H. lia.
  - destruct s as [|b s]; [done|]. destruct (Ascii.eqb a b); [|done].
    apply IH in H. simpl. lia.
Qed.

Lemma length_match_number s rest :
  match_number s = Some rest → length rest < length s.
Proof.
  unfold match_number.
  set (s1 := match s with c :: r => if Ascii.eqb c "-" then r else s | [] => s end).
  assert (H1 : length s1 ≤ length s).
  { unfold s1. destruct s as [|c r]; [done|]. destruct (Ascii.eqb c "-"); simpl; lia. }
  clearbody s1.
  destruct s1 as [|c r]; [done|].
  set (after_int := if Ascii.eqb c "0" then Some r
                    else if is_digit c then Some (skip_digits r) else None).
  assert (H2 : ∀ s2, after_int = Some s2 → length s2 < length s).
  { unfold after_int. intros s2.
    destruct (Ascii.eqb c "0"); [intros [= <-]; simpl in *; lia|].
    destruct (is_digit c); [|done]. intros [= <-].
    pose proof (length_skip_digits r). simpl in *. lia. }
  clearbody after_int.
  destruct after_int as [s2|]; [|done]. specialize (H2 s2 eq_refl).
  set (s3 := match s2 with
             | dot :: d :: r0 => if Ascii.eqb dot "." && is_digit d then skip_digits r0 else s2
             | _ => s2 end).
  assert (H3 : length s3 ≤ length s2).
  { unfold s3. destruct s2 as [|dot [|d r0]]; try done.
    destruct (Ascii.eqb dot "." && is_digit d); [|done].
    pose proof (length_skip_digits r0). simpl. lia. }
  clearbody s3.
  intros [= <-].
  destruct s3 as [|e r0]; [simpl in *; lia|].
  destruct (Ascii.eqb e "e" || Ascii.eqb e "E"); [|lia].
  set (r1 := match r0 with
             | sg :: r' => if Ascii.eqb sg "-" || Ascii.eqb sg "+" then r' else r0
             | [] => r0 end).
  assert (H4 : length r1 ≤ length r0).
  { unfold r1. destruct r0 as [|sg r']; [done|].
    destruct (Ascii.eqb sg "-" || Ascii.eqb sg "+"); simpl; lia. }
  clearbody r1.
  destruct r1 as [|d r2]; [lia|].
  destruct (is_digit d); [|lia].
  pose proof (length_skip_digits r2). simpl in *. lia.
Qed.

(** The loops over the items of an array and the members of an object
    have fuel enough when the scanner of their values has. *)
Lemma parse_items_fuel value n s :
  (∀ s', length s' ≤ length s → consumes value s') →
  length s < n → consumes (parse_items value n) s.
Proof.
  revert s. induction n as [|n IH]; intros s Hv Hn; [lia|].
  unfold consumes. simpl.
  destruct (Hv s (le_n _)) as [Hf Hlen].
  destruct (value s) as [v rest| |] eqn:Hs; [|done..].
  specialize (Hlen v rest eq_refl).
  pose proof (length_skip_ws rest) as Hws.
  destruct (skip_ws rest) as [|c r]; [done|]. simpl in Hws.
  destruct (Ascii.eqb c "]").
  { split; [done|]. intros vs rest' [= <- <-]. lia. }
  destruct (Ascii.eqb c ","); [|done].
  pose proof (length_skip_ws r) as Hws'.
  destruct (IH (skip_ws r)) as [Hf' Hlen'].
  { intros s' Hs'. apply Hv. lia. }
  { lia. }
  destruct (parse_items value n (skip_ws r)) as [vs rest'| |]; [|done..].
  split; [done|]. intros vs' rest'' [= <- <-].
  specialize (Hlen' vs rest' eq_refl). lia.
Qed.

Lemma parse_members_fuel value n s :
  (∀ s', length s' ≤ length s → consumes value s') →
  length s < n → consumes (parse_members value n) s.
Proof.
  revert s. induction n as [|n IH]; intros s Hv Hn; [lia|].
  unfold consumes. simpl.
  destruct s as [|q s1]; [done|].
  destruct (Ascii.eqb q "034"); [|done].
  destruct (scanstring s1) as [[key s2]|] eqn:Hk; [|done].
  apply length_scanstring in Hk.
  pose proof (length_skip_ws s2) as Hws2.
  destruct (skip_ws s2) as [|colon s3]; [done|]. simpl in Hws2.
  destruct (Ascii.eqb colon ":"); [|done].
  pose proof (length_skip_ws s3) as Hws3.
  destruct (Hv (skip_ws s3)) as [Hf Hlen]; [simpl; lia|].
  destruct (value (skip_ws s3)) as [v rest| |] eqn:Hs; [|done..].
  specialize (Hlen v rest eq_refl).
  pose proof (length_skip_ws rest) as Hws.
  destruct (skip_ws rest) as [|c r]; [done|]. simpl in Hws.
  destruct (Ascii.eqb c "}").
  { split; [done|]. intros vs rest' [= <- <-]. simpl. lia. }
  destruct (Ascii.eqb c ","); [|done].
  pose proof (length_skip_ws r) as Hws'.
  destruct (IH (skip_ws r)) as [Hf' Hlen'].
  { intros s' Hs'. apply Hv. simpl. lia. }
  { simpl in Hn. lia. }
  destruct (parse_members value n (skip_ws r)) as [vs rest'| |]; [|done..].
  split; [done|]. intros vs' rest'' [= <- <-].
  specialize (Hlen' vs rest' eq_refl). simpl. lia.
Qed.

(** Fuel above the length of the input is never used up. *)
Lemma scan_once_fuel fuel s : length s < fuel → consumes (scan_once fuel) s.
Proof.
  revert s. induction fuel as [|fuel IH]; intros s Hn; [lia|].
  unfold consumes. cbn [scan_once].
  destruct s as [|c r]; [done|]. simpl in Hn.
  destruct (Ascii.eqb c "034").
  { destruct (scanstring r) as [[cs rest]|] eqn:Hs; [|done].
    apply length_scanstring in Hs.
    split; [done|]. intros v rest' [= <- <-]. simpl. lia. }
  destruct (Ascii.eqb c "{").
  { pose proof (length_skip_ws r) as Hws.
    destruct (skip_ws r) as [|c' r']; [done|]. simpl in Hws.
    destruct (Ascii.eqb c' "}").
    { split; [done|]. intros v rest' [= <- <-]. simpl. lia. }
    destruct (parse_members_fuel (scan_once fuel) fuel (c' :: r')) as [Hf Hlen].
    { intros s' Hs'. apply IH. simpl in Hs'. lia. }
    { simpl. lia. }
    destruct (parse_members (scan_once fuel) fuel (c' :: r')) as [kvs rest| |];
      [|done..].
    split; [done|]. intros v rest' [= <- <-].
    specialize (Hlen kvs rest eq_refl). simpl in *. lia. }
  destruct (Ascii.eqb c "[").
  { pose proof (length_skip_ws r) as Hws.
    destruct (skip_ws r) as [|c' r']; [done|]. simpl in Hws.
    destruct (Ascii.eqb c' "]").
    { split; [done|]. intros v rest' [= <- <-]. simpl. lia. }
    destruct (parse_items_fuel (scan_once fuel) fuel (c' :: r')) as [Hf Hlen].
    { intros s' Hs'. apply IH. simpl in Hs'. lia. }
    { simpl. lia. }
    destruct (parse_items (scan_once fuel) fuel (c' :: r')) as [vs rest| |];
      [|done..].
    split; [done|]. intros v rest' [= <- <-].
    specialize (Hlen vs rest eq_refl). simpl in *. lia. }
  repeat match goal with
  | |- context [strip_prefix ?lit (c :: r)] =>
    let H := fresh "Hp" in
    destruct (strip_prefix lit (c :: r)) eqn:H;
    [apply length_strip_prefix in H; simpl in H|]
  end;
  try (split; [done|]; intros v rest' [= <- <-]; simpl; lia).
  destruct (match_number (c :: r)) as [rest|] eqn:Hm; [|done].
  apply length_match_number in Hm.
  split; [done|]. by intros v rest' [= <- <-].
Qed.

(** So [loads s = None] stands for a [JSONDecodeError] and for nothing
    else. *)
Lemma loads_fuel s : scan_once (S (length s)) (skip_ws s) ≠ OutOfFuel.
Proof.
  apply scan_once_fuel. pose proof (length_skip_ws s). lia.
Qed.

(** *** What is saved is what is loaded *)





















(** C9: at every moment of every run, at most three tasks are in flight,
    whatever the number of films. *)
Theorem in_flight_at_most_three env films cache0 w0 p :
  reachable env films cache0 w0 p → length (running p) ≤ 3.
Proof.
  intros [schedule He]. change 3 with max_workers. revert He.
  apply (exec_invariant env (fun p => length (running p) ≤ max_workers)).
  - intros a q q'. apply step_in_flight.
  - simpl. lia.
Qed.

(** ** [main] as a whole *)

(** When [main] reads its cache, finds films and runs to its end, what it
    prints ends with one report line per film, in the order of
    discovery. *)
Lemma main_report env schedule w0 o w1 containers :
  cache_file (fs w0) ≠ Some FileUndecodable →
  chrome_error env 0 = None →
  popular_page env = DiscoveryContainers containers →
  omap id (take 12 containers) ≠ [] →
  main env schedule w0 = Some (o, w1) →
  ∃ before sorted,
    stdout w1 = before ++ map MsgResult sorted ∧
    map key_of_result sorted = submit_all (omap id (take 12 containers)).
Proof.
  intros Hfile Hd Hp Hne. unfold main.
  assert (Hload : ∀ e w', load_cache w0 ≠ (Raised e, w')).
  { intros e w'. unfold load_cache.
    destruct (cache_file (fs w0)) as [[content| |]|]; try done.
    by destruct (loads (text content)). }
  destruct (load_cache w0) as [[[c|v]|e] w'] eqn:Hl;
    [|done|by destruct (Hload e w')].
  unfold setup_driver, scrape_letterboxd_popular, bind, print, emit, ret.
  rewrite Hd, Hp. cbn [negb fst snd].
  destruct (omap id (take 12 containers)) as [|f films] eqn:Hf; [done|].
  destruct (exec env schedule _) as [p|] eqn:He; [|done].
  destruct (all_collected p) eqn:Ha; [|done].
  intros Hm.
  pose proof (sorted_results _ _ _ _ _ _ He Ha) as Hs.
  exists (stdout (w p) ++
          [MsgSummary (cached_count (sort_by_index (results p)))
             (length (sort_by_index (results p)) -
              cached_count (sort_by_index (results p)))]),
         (sort_by_index (results p)).
  split; [|exact Hs].
  unfold report, quit, emit, ret in Hm.
  destruct (quit_error env 0); inversion Hm; subst; cbn [stdout];
    by rewrite <- app_assoc.
Qed.

(** ** The statements at concrete inputs *)


Lemma at_most_one_fetch_per_item_witness :
  ∃ p,
    reachable (calm_env blank_page) [film_a; film_b] ∅ (empty_world no_file) p ∧
    ∃ evs, events (w p) = events (empty_world no_file) ++ evs ∧
      (∀ i, count_where (is_lookup_by i) evs ≤ 1) ∧
      (∀ u, count_where (is_lookup_of u) evs
            ≤ count_where (fun f => bool_decide (film_url f = u)) [film_a; film_b]).
Proof.
  assert (H : ∃ p, exec (calm_env blank_page) [Start; Start; Finish 0; Finish 0]
                     (submitted [film_a; film_b] ∅ (empty_world no_file)) = Some p).
  { eexists. vm_compute. reflexivity. }
  destruct H as [p Hp]. exists p.
  assert (Hr : reachable (calm_env blank_page) [film_a; film_b] ∅
                 (empty_world no_file) p) by (by eexists).
  split; [exact Hr|].
  apply (at_most_one_fetch_per_item (calm_env blank_page) [film_a; film_b] ∅
           (empty_world no_file) p Hr).
Defined.




Lemma in_flight_at_most_three_witness :
  ∃ p,
    reachable (calm_env blank_page) twelve_films ∅ (empty_world no_file) p ∧
    length (running p) = 3 ∧ length (queue p) = 9 ∧
    step (calm_env blank_page) Start p = None ∧
    length (running p) ≤ 3.
Proof.
  assert (H : ∃ p, exec (calm_env blank_page) [Start; Start; Start]
                     (submitted twelve_films ∅ (empty_world no_file)) = Some p ∧
                   length (running p) = 3 ∧ length (queue p) = 9 ∧
                   step (calm_env blank_page) Start p = None).
  { eexists. split; [vm_compute; reflexivity|]. by vm_compute. }
  destruct H as (p & Hp & H3 & H9 & Hs). exists p.
  assert (Hr : reachable (calm_env blank_page) twelve_films ∅
                 (empty_world no_file) p) by (by eexists).
  split; [exact Hr|]. split; [exact H3|]. split; [exact H9|]. split; [exact Hs|].
  apply (in_flight_at_most_three (calm_env blank_page) twelve_films ∅
           (empty_world no_file) p Hr).
Defined.

Lemma stored_title_is_not_read_witness :
  same_streaming cache_a cache_a' ∧
  cache_a ≠ cache_a' ∧
  match exec (calm_env blank_page) (sequential 2)
          (submitted [film_a; film_x] cache_a (empty_world no_file)),
        exec (calm_env blank_page) (sequential 2)
          (submitted [film_a; film_x] cache_a' (empty_world no_file)) with
  | Some p1, Some p2 =>
    agree p1 p2 ∧ sort_by_index (results p1) = sort_by_index (results p2)
  | None, None => True
  | _, _ => False
  end.
Proof.
  assert (H : same_streaming cache_a cache_a') by (by vm_compute).
  split; [exact H|]. split.
  - intros Heq. assert (Hl : cache_a !! "dup" = cache_a' !! "dup") by (by rewrite Heq).
    vm_compute in Hl. discriminate Hl.
  - apply (stored_title_is_not_read (calm_env blank_page) [film_a; film_x]
             cache_a cache_a' (empty_world no_file) (sequential 2) H).
Defined.

